(** * immer/heap/heap_policy.hpp: heap policies and the allocator mixin

    The header computes, at compile time, which heap a node type
    allocates from.  Heap types are template instantiations; they are
    embedded here as terms of [heap_type], the policies as functions
    into it, and the static [allocate]/[deallocate] members of an
    instantiation as an interpreter over those terms. *)

From stdpp Require Import base numbers option list strings countable gmap.

Local Open Scope N_scope.

(** ** Heap types

    One constructor per class template the header instantiates, with the
    template parameters in the order the header passes them.  [user_heap]
    stands for a heap the library does not build itself (the [Heap]
    argument a user hands to a policy, named by its type name).
    [std::size_t] parameters are natural numbers; the header compares
    them and never computes with them. *)

Inductive heap_type : Type :=
| user_heap (name : string)
| debug_size_heap (Base : heap_type)
| free_list_heap (Size Limit : N) (Base : heap_type)
| unsafe_free_list_heap (Size Limit : N) (Base : heap_type)
| thread_local_free_list_heap (Size Limit : N) (Base : heap_type)
| with_free_list_node (Base : heap_type)
| split_heap (Size : N) (SmallHeap BigHeap : heap_type).

#[global] Instance heap_type_eq_dec : EqDecision heap_type.
Proof. solve_decision. Defined.

(** Two instantiations are the same type exactly when the template name
    and all arguments agree; the encoding below makes heap types usable
    as keys of the per-instantiation static state. *)

Fixpoint heap_type_to_tree (h : heap_type) : gen_tree (string + N) :=
  match h with
  | user_heap name => GenLeaf (inl name)
  | debug_size_heap b => GenNode 0 [heap_type_to_tree b]
  | free_list_heap s l b =>
      GenNode 1 [GenLeaf (inr s); GenLeaf (inr l); heap_type_to_tree b]
  | unsafe_free_list_heap s l b =>
      GenNode 2 [GenLeaf (inr s); GenLeaf (inr l); heap_type_to_tree b]
  | thread_local_free_list_heap s l b =>
      GenNode 3 [GenLeaf (inr s); GenLeaf (inr l); heap_type_to_tree b]
  | with_free_list_node b => GenNode 4 [heap_type_to_tree b]
  | split_heap s a b =>
      GenNode 5 [GenLeaf (inr s); heap_type_to_tree a; heap_type_to_tree b]
  end.

Fixpoint heap_type_of_tree (t : gen_tree (string + N)) : option heap_type :=
  match t with
  | GenLeaf (inl name) => Some (user_heap name)
  | GenNode 0 [b] => debug_size_heap <$> heap_type_of_tree b
  | GenNode 1 [GenLeaf (inr s); GenLeaf (inr l); b] =>
      free_list_heap s l <$> heap_type_of_tree b
  | GenNode 2 [GenLeaf (inr s); GenLeaf (inr l); b] =>
      unsafe_free_list_heap s l <$> heap_type_of_tree b
  | GenNode 3 [GenLeaf (inr s); GenLeaf (inr l); b] =>
      thread_local_free_list_heap s l <$> heap_type_of_tree b
  | GenNode 4 [b] => with_free_list_node <$> heap_type_of_tree b
  | GenNode 5 [GenLeaf (inr s); a; b] =>
      match heap_type_of_tree a, heap_type_of_tree b with
      | Some a', Some b' => Some (split_heap s a' b')
      | _, _ => None
      end
  | _ => None
  end.

#[global] Instance heap_type_countable : Countable heap_type.
Proof.
  refine (inj_countable heap_type_to_tree heap_type_of_tree _).
  intros h.
  induction h as [name|b IH|s l b IH|s l b IH|s l b IH|b IH|s a IHa b IHb];
    cbn [heap_type_to_tree heap_type_of_tree];
    rewrite ?IH, ?IHa, ?IHb; reflexivity.
Defined.

(** ** Heap policies

    A policy is a type with a member [type] and a member template
    [optimized<Size>::type]. *)

Record HeapPolicy : Type := {
  type : heap_type;
  optimized : N -> heap_type
}.

(** [template <typename Heap> struct heap_policy] *)
Definition heap_policy (Heap : heap_type) : HeapPolicy :=
  {| type := Heap;
     optimized := fun _ => Heap |}.

(** [template <typename Heap, std::size_t Limit> struct free_list_heap_policy] *)
Definition free_list_heap_policy (Heap : heap_type) (Limit : N) : HeapPolicy :=
  {| type := debug_size_heap Heap;
     optimized := fun Size =>
       split_heap
         Size
         (with_free_list_node
            (thread_local_free_list_heap
               Size
               Limit
               (free_list_heap
                  Size Limit
                  (debug_size_heap Heap))))
         (debug_size_heap Heap) |}.

(** [template <typename Heap, std::size_t Limit> struct unsafe_free_list_heap_policy] *)
Definition unsafe_free_list_heap_policy (Heap : heap_type) (Limit : N) : HeapPolicy :=
  {| type := Heap;
     optimized := fun Size =>
       split_heap
         Size
         (with_free_list_node
            (unsafe_free_list_heap
               Size Limit
               (debug_size_heap Heap)))
         (debug_size_heap Heap) |}.

(** ** The allocator mixin's node types

    [enable_optimized_heap_policy<Deriv, HeapPolicy>] only ever looks at
    [sizeof(Deriv)], so a node type is its name and its size. *)

Record class_type : Type := {
  class_name : string;
  sizeof : N
}.

(** ** Run-time state

    Addresses are numbers and [0] is the null pointer.  Every static
    member of a template instantiation exists once per instantiation, so
    the free lists are stored under the heap type that owns them (and
    under the thread as well for [thread_local] ones).  [memory] holds the
    words the heaps themselves write into blocks: size tags and free-list
    links.  [calls] records what reached the user-supplied heaps. *)

Definition ptr : Type := N.
Definition thread_id : Type := N.

Inductive heap_call : Type :=
| CallAllocate (name : string) (size : N) (block : ptr)
| CallDeallocate (name : string) (size : N) (block : ptr).

Record free_list : Type := {
  head : ptr;
  count : N
}.

Definition empty_free_list : free_list := {| head := 0; count := 0 |}.

Record world : Type := {
  calls : list heap_call;
  memory : gmap N N;
  global_lists : gmap heap_type free_list;
  thread_lists : gmap (thread_id * heap_type) free_list
}.

Definition empty_world : world :=
  {| calls := []; memory := ∅; global_lists := ∅; thread_lists := ∅ |}.

Definition read_word (a : ptr) (w : world) : N :=
  default 0 (memory w !! a).

Definition write_word (a : ptr) (v : N) (w : world) : world :=
  {| calls := calls w;
     memory := <[a := v]> (memory w);
     global_lists := global_lists w;
     thread_lists := thread_lists w |}.

Definition log_call (c : heap_call) (w : world) : world :=
  {| calls := c :: calls w;
     memory := memory w;
     global_lists := global_lists w;
     thread_lists := thread_lists w |}.

Definition global_list (h : heap_type) (w : world) : free_list :=
  default empty_free_list (global_lists w !! h).

Definition set_global_list (h : heap_type) (l : free_list) (w : world) : world :=
  {| calls := calls w;
     memory := memory w;
     global_lists := <[h := l]> (global_lists w);
     thread_lists := thread_lists w |}.

Definition thread_list (h : heap_type) (t : thread_id) (w : world) : free_list :=
  default empty_free_list (thread_lists w !! (t, h)).

Definition set_thread_list (h : heap_type) (t : thread_id) (l : free_list)
    (w : world) : world :=
  {| calls := calls w;
     memory := memory w;
     global_lists := global_lists w;
     thread_lists := <[(t, h) := l]> (thread_lists w) |}.

(** What lies outside the header: the user-supplied heaps (the answer of
    [Heap::allocate] as a function of the calls it has seen so far,
    [None] when it is exhausted), the build mode that
    [immer/config.hpp] selects, the size of the tag the debug heap
    prepends, and the adjustments [with_free_list_node] makes to the
    requested size and to the pointers on the way in and out (it is
    declared in one of the included headers). *)

Record environment : Type := {
  heap_allocate : string -> list heap_call -> N -> option ptr;
  debug_build : bool;
  metadata : N;
  node_request : N -> N;
  node_to_block : ptr -> ptr;
  block_to_node : ptr -> ptr
}.

(** ** Outcomes and sequencing

    An operation runs on a thread, reads and updates the world, and
    either returns, or fails because the underlying heap is exhausted,
    or stops the program on a failed assertion. *)

Inductive outcome (A : Type) : Type :=
| Returned (a : A) (w : world)
| OutOfMemory
| AssertionFailure.

Arguments Returned {A} a w.
Arguments OutOfMemory {A}.
Arguments AssertionFailure {A}.

Definition op (A : Type) : Type := thread_id -> world -> outcome A.

Definition ret {A} (a : A) : op A := fun _ w => Returned a w.

Definition bind {A B} (c : op A) (k : A -> op B) : op B :=
  fun t w =>
    match c t w with
    | Returned a w' => k a t w'
    | OutOfMemory => OutOfMemory
    | AssertionFailure => AssertionFailure
    end.

Definition update (f : world -> world) : op unit :=
  fun _ w => Returned tt (f w).

Definition assertion (b : bool) : op unit :=
  fun _ w => if b then Returned tt w else AssertionFailure.

Notation "x <- c ;; k" := (bind c (fun x => k))
  (at level 100, c at next level, right associativity).
Notation "c ;;; k" := (bind c (fun _ => k))
  (at level 100, k at level 200, right associativity).

Definition gets {A} (f : world -> A) : op A :=
  fun _ w => Returned (f w) w.

Definition this_thread : op thread_id :=
  fun t w => Returned t w.

(** ** The heaps the policies compose

    Each heap is a pair of static member functions; a heap that wraps
    another receives the wrapped heap's functions as [base]. *)

Section Heaps.

Context (env : environment).

(** A user-supplied heap: the call is answered outside the library and
    recorded. *)
Definition user_heap_allocate (name : string) (size : N) : op ptr :=
  fun _ w =>
    match heap_allocate env name (calls w) size with
    | Some p => Returned p (log_call (CallAllocate name size p) w)
    | None => OutOfMemory
    end.

Definition user_heap_deallocate (name : string) (size : N) (data : ptr) : op unit :=
  update (log_call (CallDeallocate name size data)).

(** Modelled from the spec: [immer/heap/debug_size_heap.hpp] is included
    by the header but not part of it.  Section 4.2: [allocate] requests
    [size + metadata] bytes from the wrapped heap, writes [size] into the
    metadata and returns the pointer past it; [deallocate] reads the
    stored size in front of the pointer, asserts that it equals [size],
    then hands the block back with the size it was allocated with.  In a
    release build the wrapper is elided. *)
Definition debug_size_heap_allocate (base : N -> op ptr) (size : N) : op ptr :=
  if debug_build env then
    p <- base (size + metadata env) ;;
    update (write_word p size) ;;;
    ret (p + metadata env)
  else base size.

Definition debug_size_heap_deallocate (base : N -> ptr -> op unit)
    (size : N) (data : ptr) : op unit :=
  if debug_build env then
    let p := data - metadata env in
    stored <- gets (read_word p) ;;
    assertion (stored =? size) ;;;
    base (stored + metadata env) p
  else base size data.

(** Modelled from the spec: [immer/heap/free_list_heap.hpp] is included
    by the header but not part of it.  Section 4.3: [allocate] pops the
    head of the list (read the head, read its successor from the block's
    first word, make the successor the head, decrement the count) and
    falls through to [H.allocate(Size)] when the list is empty;
    [deallocate] forwards to [H.deallocate(Size, block)] when the count
    is at or above [Limit], and otherwise writes the head into the
    block's first word, makes the block the head and increments the
    count.  [get] and [set] say where the list lives.  One call is one
    step: the compare-and-swap loop is run to its successful iteration. *)
Definition pop_free_list (get : op free_list) (set : free_list -> op unit)
    (Size : N) (base : N -> op ptr) : op ptr :=
  l <- get ;;
  if head l =? 0 then base Size
  else
    next <- gets (read_word (head l)) ;;
    set {| head := next; count := count l - 1 |} ;;;
    ret (head l).

Definition push_free_list (get : op free_list) (set : free_list -> op unit)
    (Size Limit : N) (base : N -> ptr -> op unit) (data : ptr) : op unit :=
  l <- get ;;
  if Limit <=? count l then base Size data
  else
    update (write_word data (head l)) ;;;
    set {| head := data; count := count l + 1 |}.

Definition free_list_heap_allocate (self : heap_type) (Size : N)
    (base : N -> op ptr) (size : N) : op ptr :=
  pop_free_list (gets (global_list self))
                (fun l => update (set_global_list self l)) Size base.

Definition free_list_heap_deallocate (self : heap_type) (Size Limit : N)
    (base : N -> ptr -> op unit) (size : N) (data : ptr) : op unit :=
  push_free_list (gets (global_list self))
                 (fun l => update (set_global_list self l)) Size Limit base data.

(** Modelled from the spec: [immer/heap/thread_local_free_list_heap.hpp]
    is included by the header but not part of it.  Section 4.4: the
    algorithm of 4.3 on one list and count per thread.  (What happens
    at thread exit is no part of [allocate] or [deallocate].) *)
Definition thread_local_free_list_heap_allocate (self : heap_type) (Size : N)
    (base : N -> op ptr) (size : N) : op ptr :=
  pop_free_list (t <- this_thread ;; gets (thread_list self t))
                (fun l => t <- this_thread ;; update (set_thread_list self t l))
                Size base.

Definition thread_local_free_list_heap_deallocate (self : heap_type)
    (Size Limit : N) (base : N -> ptr -> op unit) (size : N) (data : ptr)
    : op unit :=
  push_free_list (t <- this_thread ;; gets (thread_list self t))
                 (fun l => t <- this_thread ;; update (set_thread_list self t l))
                 Size Limit base data.

(** [with_free_list_node] is declared outside the header.  It is taken
    as a wrapper that forwards each call to its base once, with the
    adjustments the environment gives. *)
Definition with_free_list_node_allocate (base : N -> op ptr) (size : N) : op ptr :=
  p <- base (node_request env size) ;;
  ret (node_to_block env p).

Definition with_free_list_node_deallocate (base : N -> ptr -> op unit)
    (size : N) (data : ptr) : op unit :=
  base (node_request env size) (block_to_node env data).

(** Modelled from the spec: [immer/heap/split_heap.hpp] is included by
    the header but not part of it.  Section 4.5: [allocate(requested)]
    delegates to [Hopt.allocate(Size)] if [requested <= Size] and to
    [Hfallback.allocate(requested)] otherwise; [deallocate(requested,
    block)] routes back through the same branch using the requested
    size. *)
Definition split_heap_allocate (Size : N) (small big : N -> op ptr)
    (size : N) : op ptr :=
  if size <=? Size then small Size else big size.

Definition split_heap_deallocate (Size : N) (small big : N -> ptr -> op unit)
    (size : N) (data : ptr) : op unit :=
  if size <=? Size then small size data else big size data.

(** [heap_type::allocate(size)] and [heap_type::deallocate(size, data)]
    for an arbitrary instantiation.  The unsafe free list has the
    structure of the global one (spec, section 3) and differs only in
    atomicity, which one-call-one-step execution does not observe; each
    instantiation owns the list stored under its own type. *)
Fixpoint allocate (h : heap_type) : N -> op ptr :=
  match h with
  | user_heap name => user_heap_allocate name
  | debug_size_heap Base => debug_size_heap_allocate (allocate Base)
  | free_list_heap Size Limit Base =>
      free_list_heap_allocate h Size (allocate Base)
  | unsafe_free_list_heap Size Limit Base =>
      free_list_heap_allocate h Size (allocate Base)
  | thread_local_free_list_heap Size Limit Base =>
      thread_local_free_list_heap_allocate h Size (allocate Base)
  | with_free_list_node Base => with_free_list_node_allocate (allocate Base)
  | split_heap Size SmallHeap BigHeap =>
      split_heap_allocate Size (allocate SmallHeap) (allocate BigHeap)
  end.

Fixpoint deallocate (h : heap_type) : N -> ptr -> op unit :=
  match h with
  | user_heap name => user_heap_deallocate name
  | debug_size_heap Base => debug_size_heap_deallocate (deallocate Base)
  | free_list_heap Size Limit Base =>
      free_list_heap_deallocate h Size Limit (deallocate Base)
  | unsafe_free_list_heap Size Limit Base =>
      free_list_heap_deallocate h Size Limit (deallocate Base)
  | thread_local_free_list_heap Size Limit Base =>
      thread_local_free_list_heap_deallocate h Size Limit (deallocate Base)
  | with_free_list_node Base => with_free_list_node_deallocate (deallocate Base)
  | split_heap Size SmallHeap BigHeap =>
      split_heap_deallocate Size (deallocate SmallHeap) (deallocate BigHeap)
  end.

(** ** [enable_optimized_heap_policy<Deriv, HeapPolicy>] *)

(** [static void* operator new (std::size_t size)] *)
Definition operator_new (Deriv : class_type) (HeapPolicy : HeapPolicy)
    (size : N) : op ptr :=
  let heap := optimized HeapPolicy (sizeof Deriv) in
  allocate heap size.

(** [static void operator delete (void* data, std::size_t size)] *)
Definition operator_delete (Deriv : class_type) (HeapPolicy : HeapPolicy)
    (data : ptr) (size : N) : op unit :=
  let heap := optimized HeapPolicy (sizeof Deriv) in
  deallocate heap size data.

End Heaps.

(** ** A concrete environment

    A bump allocator starting at address 4096 stands in for the user's
    heap, tags are 8 bytes, and [with_free_list_node] reserves 8 bytes
    in front of the block. *)

Fixpoint allocated_bytes (cs : list heap_call) : N :=
  match cs with
  | [] => 0
  | CallAllocate _ size _ :: cs' => size + allocated_bytes cs'
  | CallDeallocate _ _ _ :: cs' => allocated_bytes cs'
  end.

Definition bump_env (debug : bool) : environment :=
  {| heap_allocate := fun _ cs _ => Some (4096 + allocated_bytes cs);
     debug_build := debug;
     metadata := 8;
     node_request := fun size => size + 8;
     node_to_block := fun p => p + 8;
     block_to_node := fun p => p - 8 |}.

Definition malloc_heap : heap_type := user_heap "malloc_heap".

(** ** What the spec says the policies resolve to *)

(** The chain as section 4.6 of the spec writes it:
    [SplitHeap<size, ThreadLocalFreeListHeap<size, Limit,
    FreeListHeap<size, Limit, DebugSizeHeap<BaseHeap>>>,
    DebugSizeHeap<BaseHeap>>]. *)
Definition spec_free_list_chain (BaseHeap : heap_type) (Limit size : N)
    : heap_type :=
  split_heap size
    (thread_local_free_list_heap size Limit
       (free_list_heap size Limit (debug_size_heap BaseHeap)))
    (debug_size_heap BaseHeap).

(** Puts the optimized branch of a split heap behind
    [with_free_list_node]. *)
Definition with_node_on_small_heap (h : heap_type) : heap_type :=
  match h with
  | split_heap Size SmallHeap BigHeap =>
      split_heap Size (with_free_list_node SmallHeap) BigHeap
  | _ => h
  end.

(** The single-threaded counterpart of a heap: every atomic global free
    list becomes the non-atomic one and every thread-local tier is left
    out. *)
Fixpoint single_threaded (h : heap_type) : heap_type :=
  match h with
  | user_heap name => user_heap name
  | debug_size_heap Base => debug_size_heap (single_threaded Base)
  | free_list_heap Size Limit Base =>
      unsafe_free_list_heap Size Limit (single_threaded Base)
  | unsafe_free_list_heap Size Limit Base =>
      unsafe_free_list_heap Size Limit (single_threaded Base)
  | thread_local_free_list_heap Size Limit Base => single_threaded Base
  | with_free_list_node Base => with_free_list_node (single_threaded Base)
  | split_heap Size SmallHeap BigHeap =>
      split_heap Size (single_threaded SmallHeap) (single_threaded BigHeap)
  end.

(** The free lists a request meets on the way down, outermost first. *)
Inductive tier : Type :=
| ThreadLocalTier (Size Limit : N)
| AtomicTier (Size Limit : N)
| UnsafeTier (Size Limit : N).

Fixpoint cache_tiers (h : heap_type) : list tier :=
  match h with
  | user_heap _ => []
  | debug_size_heap Base => cache_tiers Base
  | free_list_heap Size Limit Base => AtomicTier Size Limit :: cache_tiers Base
  | unsafe_free_list_heap Size Limit Base =>
      UnsafeTier Size Limit :: cache_tiers Base
  | thread_local_free_list_heap Size Limit Base =>
      ThreadLocalTier Size Limit :: cache_tiers Base
  | with_free_list_node Base => cache_tiers Base
  | split_heap _ SmallHeap _ => cache_tiers SmallHeap
  end.

(** The capacity of a block a user-supplied heap handed out: the size
    of the request that produced it, until it is handed back. *)
Fixpoint block_capacity (cs : list heap_call) (p : ptr) : option N :=
  match cs with
  | [] => None
  | CallAllocate _ size block :: cs' =>
      if block =? p then Some size else block_capacity cs' p
  | CallDeallocate _ _ block :: cs' =>
      if block =? p then None else block_capacity cs' p
  end.

(** The two cache tiers of the chain the free-list policy resolves for
    a node size; their free lists are stored under these types. *)
Definition global_tier (Heap : heap_type) (Limit Size : N) : heap_type :=
  free_list_heap Size Limit (debug_size_heap Heap).

Definition thread_tier (Heap : heap_type) (Limit Size : N) : heap_type :=
  thread_local_free_list_heap Size Limit (global_tier Heap Limit Size).

(** Thread 0 holds one cached 48-byte block at 8200 in a list of
    capacity 1; nothing else is cached. *)
Definition full_thread_world : world :=
  set_thread_list (thread_tier malloc_heap 1 48) 0
    {| head := 8200; count := 1 |}
    (write_word 8200 0 empty_world).

Definition node48 : class_type := {| class_name := "node"; sizeof := 48 |}.

Definition leaf48 : class_type := {| class_name := "leaf"; sizeof := 48 |}.


(** The policies of the header over a given [Heap]. *)
Inductive header_policy (Heap : heap_type) : HeapPolicy -> Prop :=
| plain_policy : header_policy Heap (heap_policy Heap)
| thread_safe_policy (Limit : N) :
    header_policy Heap (free_list_heap_policy Heap Limit)
| unsafe_policy (Limit : N) :
    header_policy Heap (unsafe_free_list_heap_policy Heap Limit).

(** The user-supplied heaps a heap type ends in. *)
Fixpoint user_heaps (h : heap_type) : list string :=
  match h with
  | user_heap name => [name]
  | debug_size_heap Base => user_heaps Base
  | free_list_heap _ _ Base => user_heaps Base
  | unsafe_free_list_heap _ _ Base => user_heaps Base
  | thread_local_free_list_heap _ _ Base => user_heaps Base
  | with_free_list_node Base => user_heaps Base
  | split_heap _ SmallHeap BigHeap => user_heaps SmallHeap ++ user_heaps BigHeap
  end.

(** The instantiations inside a heap type that own a free list. *)
Fixpoint list_owners (h : heap_type) : list heap_type :=
  match h with
  | user_heap _ => []
  | debug_size_heap Base => list_owners Base
  | free_list_heap _ _ Base => h :: list_owners Base
  | unsafe_free_list_heap _ _ Base => h :: list_owners Base
  | thread_local_free_list_heap _ _ Base => h :: list_owners Base
  | with_free_list_node Base => list_owners Base
  | split_heap _ SmallHeap BigHeap => list_owners SmallHeap ++ list_owners BigHeap
  end.

(** Number of templates applied in a heap type. *)
Fixpoint heap_size (h : heap_type) : nat :=
  match h with
  | user_heap _ => 1
  | debug_size_heap Base => S (heap_size Base)
  | free_list_heap _ _ Base => S (heap_size Base)
  | unsafe_free_list_heap _ _ Base => S (heap_size Base)
  | thread_local_free_list_heap _ _ Base => S (heap_size Base)
  | with_free_list_node Base => S (heap_size Base)
  | split_heap _ SmallHeap BigHeap => S (heap_size SmallHeap + heap_size BigHeap)
  end.

(** The free list stored under [k], and every thread's list stored
    under [k], are in [w'] what they were in [w]. *)
Definition same_lists (k : heap_type) (w w' : world) : Prop :=
  global_list k w' = global_list k w
  /\ forall t, thread_list k t w' = thread_list k t w.

(** An environment whose user-supplied heaps have nothing left. *)
Definition exhausted_env : environment :=
  {| heap_allocate := fun _ _ _ => None;
     debug_build := true;
     metadata := 8;
     node_request := fun size => size + 8;
     node_to_block := fun p => p + 8;
     block_to_node := fun p => p - 8 |}.

(** ** Resolution of the policies *)

(** C1, as the spec states it, fails: the optimized branch the header
    builds is not the thread-local free-list heap itself but that heap
    inside [with_free_list_node]. *)
Lemma free_list_policy_is_not_spec_chain :
  optimized (free_list_heap_policy malloc_heap 1024) 48
  <> spec_free_list_chain malloc_heap 1024 48.
Proof. cbn. discriminate. Qed.

Section Resolution.

Variables (Heap : heap_type) (Limit : N).

(** C1 (amended): for every node size [Size] the thread-safe free-list
    policy's optimized heap is a split heap with threshold [Size] whose
    optimized branch is [with_free_list_node] around a thread-local
    free-list heap of block size [Size] and capacity [Limit], backed by a
    global free-list heap of the same [Size] and [Limit], backed by the
    debug-size-wrapped base heap, and whose fallback branch is the
    debug-size-wrapped base heap.  It is the spec's chain with the
    optimized branch wrapped, and its tiers are the spec's. *)
Theorem free_list_policy_optimized_chain (Size : N) :
  optimized (free_list_heap_policy Heap Limit) Size
  = split_heap Size
      (with_free_list_node
         (thread_local_free_list_heap Size Limit
            (free_list_heap Size Limit (debug_size_heap Heap))))
      (debug_size_heap Heap)
  /\ optimized (free_list_heap_policy Heap Limit) Size
     = with_node_on_small_heap (spec_free_list_chain Heap Limit Size)
  /\ cache_tiers (optimized (free_list_heap_policy Heap Limit) Size)
     = cache_tiers (spec_free_list_chain Heap Limit Size).
Proof. repeat split. Qed.

(** C4: for every node size the unsafe free-list policy's optimized heap
    has the split-heap shape of the thread-safe policy with the
    non-atomic global free list in place of the atomic one and no
    thread-local tier: one shared cache tier over the debug-size-wrapped
    base heap, in both policies the same fallback branch. *)
Theorem unsafe_free_list_policy_optimized_chain (Size : N) :
  optimized (unsafe_free_list_heap_policy Heap Limit) Size
  = split_heap Size
      (with_free_list_node
         (unsafe_free_list_heap Size Limit (debug_size_heap Heap)))
      (debug_size_heap Heap)
  /\ optimized (unsafe_free_list_heap_policy (single_threaded Heap) Limit) Size
     = single_threaded (optimized (free_list_heap_policy Heap Limit) Size)
  /\ (forall name : string,
        optimized (unsafe_free_list_heap_policy (user_heap name) Limit) Size
        = single_threaded
            (optimized (free_list_heap_policy (user_heap name) Limit) Size))
  /\ cache_tiers (optimized (free_list_heap_policy Heap Limit) Size)
     = ThreadLocalTier Size Limit :: AtomicTier Size Limit :: cache_tiers Heap
  /\ cache_tiers (optimized (unsafe_free_list_heap_policy Heap Limit) Size)
     = UnsafeTier Size Limit :: cache_tiers Heap.
Proof. repeat split. Qed.

(** C5: the plain policy ignores the node size; [optimized<S>::type] for
    every [S] and the default [type] are both the user-supplied heap
    itself. *)
Theorem heap_policy_ignores_size (S : N) :
  optimized (heap_policy Heap) S = Heap
  /\ type (heap_policy Heap) = Heap
  /\ (forall S' : N, optimized (heap_policy Heap) S' = optimized (heap_policy Heap) S).
Proof. repeat split. Qed.

End Resolution.

(** ** The allocator mixin *)


Section Mixin.

Variables (env : environment) (Deriv : class_type) (P : HeapPolicy).


(** C9: [operator new] and [operator delete] resolve one and the same
    heap type, fixed by [sizeof(Deriv)] before any run-time size is
    known; each forwards its [size] argument unchanged, so a block is
    handed back through the chain it came from with the size the caller
    gives.  A request larger than [sizeof(Deriv)] is still served by the
    heap resolved for [sizeof(Deriv)]: with the free-list policy, by
    that heap's fallback branch. *)
Theorem mixin_heap_fixed_by_sizeof :
  exists heap : heap_type,
    heap = optimized P (sizeof Deriv)
    /\ (forall (size : N) (data : ptr) (t : thread_id) (w : world),
          operator_new env Deriv P size t w = allocate env heap size t w
          /\ operator_delete env Deriv P data size t w
             = deallocate env heap size data t w)
    /\ (forall Heap Limit (size : N) (data : ptr) (t : thread_id) (w : world),
          sizeof Deriv < size ->
          operator_new env Deriv (free_list_heap_policy Heap Limit) size t w
          = allocate env (debug_size_heap Heap) size t w
          /\ operator_delete env Deriv (free_list_heap_policy Heap Limit)
               data size t w
             = deallocate env (debug_size_heap Heap) size data t w).
Proof.
  exists (optimized P (sizeof Deriv)). split; [reflexivity|]. split.
  - intros. split; reflexivity.
  - intros Heap Limit size data t w Hlt.
    apply N.leb_gt in Hlt.
    unfold operator_new, operator_delete; cbn.
    unfold split_heap_allocate, split_heap_deallocate.
    rewrite Hlt. split; reflexivity.
Qed.

End Mixin.


Lemma mixin_heap_fixed_by_sizeof_witness :
  sizeof node48 < 100
  /\ operator_new (bump_env true) node48 (free_list_heap_policy malloc_heap 1024)
       100 0 empty_world
     = allocate (bump_env true) (debug_size_heap malloc_heap) 100 0 empty_world.
Proof.
  split; [reflexivity|].
  destruct (mixin_heap_fixed_by_sizeof (bump_env true) node48
              (free_list_heap_policy malloc_heap 1024)) as (heap & _ & _ & H).
  apply (H malloc_heap 1024 100 0 0 empty_world). reflexivity.
Defined.

(** ** The split heap *)

Section SplitHeap.

Variables (env : environment) (Hopt Hfallback : heap_type).

Lemma split_heap_allocate_small (Size requested : N) (t : thread_id) (w : world) :
  requested <= Size ->
  allocate env (split_heap Size Hopt Hfallback) requested t w
  = allocate env Hopt Size t w.
Proof.
  intros Hle. apply N.leb_le in Hle. cbn.
  unfold split_heap_allocate. rewrite Hle. reflexivity.
Qed.

Lemma split_heap_allocate_big (Size requested : N) (t : thread_id) (w : world) :
  Size < requested ->
  allocate env (split_heap Size Hopt Hfallback) requested t w
  = allocate env Hfallback requested t w.
Proof.
  intros Hlt. apply N.leb_gt in Hlt. cbn.
  unfold split_heap_allocate. rewrite Hlt. reflexivity.
Qed.

Lemma split_heap_deallocate_small (Size requested : N) (block : ptr)
    (t : thread_id) (w : world) :
  requested <= Size ->
  deallocate env (split_heap Size Hopt Hfallback) requested block t w
  = deallocate env Hopt requested block t w.
Proof.
  intros Hle. apply N.leb_le in Hle. cbn.
  unfold split_heap_deallocate. rewrite Hle. reflexivity.
Qed.

Lemma split_heap_deallocate_big (Size requested : N) (block : ptr)
    (t : thread_id) (w : world) :
  Size < requested ->
  deallocate env (split_heap Size Hopt Hfallback) requested block t w
  = deallocate env Hfallback requested block t w.
Proof.
  intros Hlt. apply N.leb_gt in Hlt. cbn.
  unfold split_heap_deallocate. rewrite Hlt. reflexivity.
Qed.

(** C6: with threshold 64, [allocate(32)] goes to the optimized heap and
    [allocate(128)] to the fallback heap; and for every threshold and
    every requested size, [deallocate(requested, block)] goes to the
    heap [allocate(requested)] went to. *)
Theorem split_heap_routing :
  (forall t w,
     allocate env (split_heap 64 Hopt Hfallback) 32 t w
     = allocate env Hopt 64 t w)
  /\ (forall t w,
        allocate env (split_heap 64 Hopt Hfallback) 128 t w
        = allocate env Hfallback 128 t w)
  /\ (forall (Size requested : N) (block : ptr),
        (requested <= Size
         /\ (forall t w,
               allocate env (split_heap Size Hopt Hfallback) requested t w
               = allocate env Hopt Size t w)
         /\ (forall t w,
               deallocate env (split_heap Size Hopt Hfallback) requested block t w
               = deallocate env Hopt requested block t w))
        \/
        (Size < requested
         /\ (forall t w,
               allocate env (split_heap Size Hopt Hfallback) requested t w
               = allocate env Hfallback requested t w)
         /\ (forall t w,
               deallocate env (split_heap Size Hopt Hfallback) requested block t w
               = deallocate env Hfallback requested block t w))).
Proof.
  split; [|split].
  - intros. apply split_heap_allocate_small. lia.
  - intros. apply split_heap_allocate_big. lia.
  - intros Size requested block.
    destruct (N.le_gt_cases requested Size) as [Hle|Hgt].
    + left. split; [exact Hle|]. split; intros.
      * apply split_heap_allocate_small; exact Hle.
      * apply split_heap_deallocate_small; exact Hle.
    + right. split; [exact Hgt|]. split; intros.
      * apply split_heap_allocate_big; exact Hgt.
      * apply split_heap_deallocate_big; exact Hgt.
Qed.

(** C7: a request at or below the threshold is passed to the optimized
    heap as a request for exactly [Size] bytes, whatever was asked for,
    so the block that comes back has capacity [Size]; a request above
    the threshold is passed to the fallback with the requested size. *)
Theorem split_heap_fixed_size (Size requested : N) (t : thread_id) (w : world) :
  (requested <= Size ->
   allocate env (split_heap Size Hopt Hfallback) requested t w
   = allocate env Hopt Size t w)
  /\ (Size < requested ->
      allocate env (split_heap Size Hopt Hfallback) requested t w
      = allocate env Hfallback requested t w)
  /\ (forall (name : string) (p : ptr) (w' : world),
        requested <= Size ->
        allocate env (split_heap Size (user_heap name) Hfallback) requested t w
        = Returned p w' ->
        calls w' = CallAllocate name Size p :: calls w
        /\ block_capacity (calls w') p = Some Size)
  /\ (forall (name : string) (p : ptr) (w' : world),
        Size < requested ->
        allocate env (split_heap Size Hopt (user_heap name)) requested t w
        = Returned p w' ->
        calls w' = CallAllocate name requested p :: calls w
        /\ block_capacity (calls w') p = Some requested).
Proof.
  split; [|split; [|split]].
  - apply split_heap_allocate_small.
  - apply split_heap_allocate_big.
  - intros name p w' Hle. apply N.leb_le in Hle. cbn.
    unfold split_heap_allocate, user_heap_allocate. rewrite Hle.
    destruct (heap_allocate env name (calls w) Size) as [q|]; [|discriminate].
    intros [= <- <-]. cbn. rewrite N.eqb_refl. split; reflexivity.
  - intros name p w' Hlt. apply N.leb_gt in Hlt. cbn.
    unfold split_heap_allocate, user_heap_allocate. rewrite Hlt.
    destruct (heap_allocate env name (calls w) requested) as [q|]; [|discriminate].
    intros [= <- <-]. cbn. rewrite N.eqb_refl. split; reflexivity.
Qed.

End SplitHeap.

Lemma split_heap_fixed_size_witness :
  (32 <= 64
   /\ allocate (bump_env true) (split_heap 64 malloc_heap (user_heap "cpp_heap"))
        32 0 empty_world
      = allocate (bump_env true) malloc_heap 64 0 empty_world)
  /\ (64 < 128
      /\ allocate (bump_env true) (split_heap 64 malloc_heap (user_heap "cpp_heap"))
           128 0 empty_world
         = allocate (bump_env true) (user_heap "cpp_heap") 128 0 empty_world)
  /\ block_capacity [CallAllocate "malloc_heap" 64 4096] 4096 = Some 64
  /\ block_capacity [CallAllocate "cpp_heap" 128 4096] 4096 = Some 128.
Proof.
  pose proof (split_heap_fixed_size (bump_env true) malloc_heap
                (user_heap "cpp_heap") 64 32 0 empty_world) as (H1 & _ & H3 & _).
  pose proof (split_heap_fixed_size (bump_env true) malloc_heap
                (user_heap "cpp_heap") 64 128 0 empty_world) as (_ & H2 & _ & H4).
  assert (L : 32 <= 64) by (vm_compute; discriminate).
  assert (G : 64 < 128) by reflexivity.
  split; [split; [exact L | exact (H1 L)]|].
  split; [split; [exact G | exact (H2 G)]|].
  split.
  - exact (proj2 (H3 "malloc_heap" 4096
                    (log_call (CallAllocate "malloc_heap" 64 4096) empty_world)
                    L eq_refl)).
  - exact (proj2 (H4 "cpp_heap" 4096
                    (log_call (CallAllocate "cpp_heap" 128 4096) empty_world)
                    G eq_refl)).
Defined.

(** ** The debug size heap *)

Lemma read_word_write_word (a v : N) (w : world) :
  read_word a (write_word a v w) = v.
Proof. unfold read_word, write_word; cbn. rewrite lookup_insert_eq. reflexivity. Qed.

Lemma debug_size_heap_not_itself (h : heap_type) : debug_size_heap h <> h.
Proof.
  induction h as [name|b IH|s l b IH|s l b IH|s l b IH|b IH|s a IHa b IHb];
    try discriminate.
  intros [= H]. exact (IH H).
Qed.

Section DebugSizeHeap.

Variables (env : environment) (Base : heap_type).

(** The tag written by [allocate] sits just in front of the block. *)
Lemma debug_size_heap_tags_block (size : N) (t : thread_id) (w w1 : world)
    (p : ptr) :
  debug_build env = true ->
  allocate env (debug_size_heap Base) size t w = Returned p w1 ->
  read_word (p - metadata env) w1 = size.
Proof.
  intros Hdebug. cbn. unfold debug_size_heap_allocate. rewrite Hdebug.
  unfold bind, update, ret.
  destruct (allocate env Base (size + metadata env) t w) as [q wq| |];
    try discriminate.
  intros [= <- <-]. rewrite N.add_sub. apply read_word_write_word.
Qed.

Lemma debug_size_heap_rejects (stored size : N) (data : ptr) (t : thread_id)
    (w : world) :
  debug_build env = true ->
  read_word (data - metadata env) w = stored ->
  stored <> size ->
  deallocate env (debug_size_heap Base) size data t w = AssertionFailure.
Proof.
  intros Hdebug Hread Hne. cbn. unfold debug_size_heap_deallocate.
  rewrite Hdebug. unfold bind, gets, assertion. rewrite Hread.
  apply N.eqb_neq in Hne. rewrite Hne. reflexivity.
Qed.

Lemma debug_size_heap_elided :
  debug_build env = false ->
  allocate env (debug_size_heap Base) = allocate env Base
  /\ deallocate env (debug_size_heap Base) = deallocate env Base.
Proof.
  intros Hrelease. cbn.
  unfold debug_size_heap_allocate, debug_size_heap_deallocate.
  rewrite Hrelease. split; reflexivity.
Qed.

(** C8: in a debug build, [deallocate] on the debug size heap with a
    size other than the one given to the paired [allocate] fails the
    wrapper's assertion.  In a non-debug build the wrapper is elided:
    both calls are the wrapped heap's own, so the wrapper neither
    detects the mismatch nor fails, and over a user-supplied heap the
    call simply returns. *)
Theorem debug_size_heap_size_mismatch (s1 s2 : N) (t : thread_id)
    (w w1 : world) (p : ptr) :
  s1 <> s2 ->
  allocate env (debug_size_heap Base) s1 t w = Returned p w1 ->
  (debug_build env = true ->
   deallocate env (debug_size_heap Base) s2 p t w1 = AssertionFailure)
  /\ (debug_build env = false ->
      allocate env (debug_size_heap Base) s1 t w = allocate env Base s1 t w
      /\ deallocate env (debug_size_heap Base) s2 p t w1
         = deallocate env Base s2 p t w1
      /\ (forall name : string,
            deallocate env (debug_size_heap (user_heap name)) s2 p t w1
            = Returned tt (log_call (CallDeallocate name s2 p) w1))).
Proof.
  intros Hne Halloc. split.
  - intros Hdebug.
    apply (debug_size_heap_rejects s1); [exact Hdebug| |exact Hne].
    apply (debug_size_heap_tags_block s1 t w); assumption.
  - intros Hrelease.
    destruct (debug_size_heap_elided Hrelease) as [Ha Hd].
    rewrite Ha, Hd. split; [reflexivity|]. split; [reflexivity|].
    intros name. cbn. unfold debug_size_heap_deallocate. rewrite Hrelease.
    reflexivity.
Qed.

End DebugSizeHeap.

Lemma debug_size_heap_size_mismatch_witness :
  deallocate (bump_env true) (debug_size_heap malloc_heap) 32 4104 0
    (write_word 4096 48
       (log_call (CallAllocate "malloc_heap" 56 4096) empty_world))
  = AssertionFailure
  /\ deallocate (bump_env false) (debug_size_heap malloc_heap) 32 4096 0
       (log_call (CallAllocate "malloc_heap" 48 4096) empty_world)
     = deallocate (bump_env false) malloc_heap 32 4096 0
         (log_call (CallAllocate "malloc_heap" 48 4096) empty_world).
Proof.
  assert (Hne : (48 : N) <> 32) by discriminate.
  split.
  - refine (proj1 (debug_size_heap_size_mismatch (bump_env true) malloc_heap
                     48 32 0 empty_world _ 4104 Hne _) _); reflexivity.
  - refine (proj1 (proj2 (proj2 (debug_size_heap_size_mismatch
                     (bump_env false) malloc_heap
                     48 32 0 empty_world _ 4096 Hne _) _))); reflexivity.
Defined.

(** ** Default heaps of the free-list policies *)

(** C10: the thread-safe free-list policy's default [type] is the base
    heap inside the debug size heap, the unsafe policy's is the base
    heap itself, and the two are different types.  On the default path
    a size mismatch is therefore caught (debug build) by the thread-safe
    policy, while the unsafe policy adds no check of its own: its
    default heap behaves as the base heap does, and over a user-supplied
    heap the mismatched call returns. *)
Theorem free_list_policies_default_types (env : environment)
    (Heap : heap_type) (Limit : N) :
  type (free_list_heap_policy Heap Limit) = debug_size_heap Heap
  /\ type (unsafe_free_list_heap_policy Heap Limit) = Heap
  /\ type (free_list_heap_policy Heap Limit)
     <> type (unsafe_free_list_heap_policy Heap Limit)
  /\ (forall (s1 s2 : N) (t : thread_id) (w w1 : world) (p : ptr),
        debug_build env = true ->
        s1 <> s2 ->
        allocate env (type (free_list_heap_policy Heap Limit)) s1 t w
        = Returned p w1 ->
        deallocate env (type (free_list_heap_policy Heap Limit)) s2 p t w1
        = AssertionFailure)
  /\ allocate env (type (unsafe_free_list_heap_policy Heap Limit))
     = allocate env Heap
  /\ deallocate env (type (unsafe_free_list_heap_policy Heap Limit))
     = deallocate env Heap
  /\ (forall (name : string) (s2 : N) (t : thread_id) (w1 : world) (p : ptr),
        deallocate env
          (type (unsafe_free_list_heap_policy (user_heap name) Limit)) s2 p t w1
        = Returned tt (log_call (CallDeallocate name s2 p) w1)).
Proof.
  split; [reflexivity|]. split; [reflexivity|].
  split; [apply debug_size_heap_not_itself|].
  split.
  - intros s1 s2 t w w1 p Hdebug Hne Halloc. cbn [type free_list_heap_policy] in *.
    apply (debug_size_heap_rejects env Heap s1); [exact Hdebug| |exact Hne].
    apply (debug_size_heap_tags_block env Heap s1 t w); assumption.
  - repeat split.
Qed.

Lemma free_list_policies_default_types_witness :
  deallocate (bump_env true) (type (free_list_heap_policy malloc_heap 1024))
    32 4104 0
    (write_word 4096 48
       (log_call (CallAllocate "malloc_heap" 56 4096) empty_world))
  = AssertionFailure.
Proof.
  assert (Hne : (48 : N) <> 32) by discriminate.
  refine (proj1 (proj2 (proj2 (proj2
            (free_list_policies_default_types (bump_env true) malloc_heap 1024))))
            48 32 0 empty_world _ 4104 _ Hne _); reflexivity.
Defined.

(** ** Determinism of resolution and the shared free lists *)

Lemma thread_list_set_thread_list (h : heap_type) (t : thread_id)
    (l : free_list) (w : world) :
  thread_list h t (set_thread_list h t l w) = l.
Proof.
  unfold thread_list, set_thread_list; cbn.
  rewrite lookup_insert_eq. reflexivity.
Qed.

Lemma global_list_set_global_list (h : heap_type) (l : free_list) (w : world) :
  global_list h (set_global_list h l w) = l.
Proof.
  unfold global_list, set_global_list; cbn.
  rewrite lookup_insert_eq. reflexivity.
Qed.

Section SharedFreeLists.

Variables (env : environment) (Heap : heap_type) (Limit : N).

(** A block freed into a thread's list that has room is the next block
    the same thread is given, and no user-supplied heap is called. *)
Lemma freed_block_reused_by_thread (Size size1 size2 : N) (block : ptr)
    (t : thread_id) (w : world) :
  size1 <= Size -> size2 <= Size ->
  block_to_node env block <> 0 ->
  node_to_block env (block_to_node env block) = block ->
  count (thread_list (thread_tier Heap Limit Size) t w) < Limit ->
  exists w1 w2,
    deallocate env (optimized (free_list_heap_policy Heap Limit) Size)
      size1 block t w = Returned tt w1
    /\ allocate env (optimized (free_list_heap_policy Heap Limit) Size)
         size2 t w1 = Returned block w2
    /\ calls w2 = calls w.
Proof.
  intros Hle1 Hle2 Hnode Hround Hroom.
  apply N.leb_le in Hle1. apply N.leb_le in Hle2.
  apply N.leb_gt in Hroom. apply N.eqb_neq in Hnode.
  fold (global_tier Heap Limit Size) (thread_tier Heap Limit Size) in *.
  set (l := thread_list (thread_tier Heap Limit Size) t w) in *.
  set (node := block_to_node env block) in *.
  set (w1 := set_thread_list (thread_tier Heap Limit Size) t
               {| head := node; count := count l + 1 |}
               (write_word node (head l) w)).
  exists w1.
  exists (set_thread_list (thread_tier Heap Limit Size) t
            {| head := head l; count := count l + 1 - 1 |} w1).
  split; [|split].
  - cbn. unfold split_heap_deallocate. rewrite Hle1.
    unfold with_free_list_node_deallocate,
      thread_local_free_list_heap_deallocate, push_free_list,
      bind, this_thread, gets, update.
    fold (global_tier Heap Limit Size) (thread_tier Heap Limit Size). fold l. fold node.
    rewrite Hroom. reflexivity.
  - cbn. unfold split_heap_allocate. rewrite Hle2.
    unfold with_free_list_node_allocate,
      thread_local_free_list_heap_allocate, pop_free_list,
      bind, this_thread, gets, update, ret.
    fold (global_tier Heap Limit Size) (thread_tier Heap Limit Size).
    assert (Hlist : thread_list (thread_tier Heap Limit Size) t w1
                    = {| head := node; count := count l + 1 |})
      by apply thread_list_set_thread_list.
    rewrite Hlist. cbn [head count]. rewrite Hnode.
    assert (Hnext : read_word node w1 = head l).
    { unfold w1, read_word, set_thread_list, write_word; cbn.
      rewrite lookup_insert_eq. reflexivity. }
    rewrite Hnext. fold node in Hround. rewrite Hround. reflexivity.
  - reflexivity.
Qed.

(** A block freed by a thread whose own list is full goes to the global
    list when that has room, and is handed from there to any thread
    whose own list is empty. *)
Lemma freed_block_reused_across_threads (Size size1 size2 : N) (block : ptr)
    (t t' : thread_id) (w : world) :
  size1 <= Size -> size2 <= Size ->
  block_to_node env block <> 0 ->
  node_to_block env (block_to_node env block) = block ->
  Limit <= count (thread_list (thread_tier Heap Limit Size) t w) ->
  count (global_list (global_tier Heap Limit Size) w) < Limit ->
  head (thread_list (thread_tier Heap Limit Size) t' w) = 0 ->
  exists w1 w2,
    deallocate env (optimized (free_list_heap_policy Heap Limit) Size)
      size1 block t w = Returned tt w1
    /\ allocate env (optimized (free_list_heap_policy Heap Limit) Size)
         size2 t' w1 = Returned block w2
    /\ calls w2 = calls w.
Proof.
  intros Hle1 Hle2 Hnode Hround Hfull Hroom Hempty.
  apply N.leb_le in Hle1. apply N.leb_le in Hle2.
  apply N.leb_le in Hfull. apply N.leb_gt in Hroom.
  apply N.eqb_neq in Hnode. apply N.eqb_eq in Hempty.
  fold (global_tier Heap Limit Size) (thread_tier Heap Limit Size) in *.
  set (g := global_list (global_tier Heap Limit Size) w) in *.
  set (node := block_to_node env block) in *.
  set (w1 := set_global_list (global_tier Heap Limit Size)
               {| head := node; count := count g + 1 |}
               (write_word node (head g) w)).
  exists w1.
  exists (set_global_list (global_tier Heap Limit Size)
            {| head := head g; count := count g + 1 - 1 |} w1).
  split; [|split].
  - cbn. unfold split_heap_deallocate. rewrite Hle1.
    unfold with_free_list_node_deallocate,
      thread_local_free_list_heap_deallocate, push_free_list,
      bind, this_thread, gets, update.
    fold (global_tier Heap Limit Size) (thread_tier Heap Limit Size). rewrite Hfull.
    cbn. unfold free_list_heap_deallocate, push_free_list, bind, gets, update.
    fold (global_tier Heap Limit Size). fold g. fold node. rewrite Hroom. reflexivity.
  - cbn. unfold split_heap_allocate. rewrite Hle2.
    unfold with_free_list_node_allocate,
      thread_local_free_list_heap_allocate, pop_free_list,
      bind, this_thread, gets, update, ret.
    fold (global_tier Heap Limit Size) (thread_tier Heap Limit Size).
    assert (Hsame : thread_list (thread_tier Heap Limit Size) t' w1
                    = thread_list (thread_tier Heap Limit Size) t' w) by reflexivity.
    rewrite Hsame, Hempty.
    cbn. unfold free_list_heap_allocate, pop_free_list, bind, gets, update, ret.
    fold (global_tier Heap Limit Size).
    assert (Hlist : global_list (global_tier Heap Limit Size) w1
                    = {| head := node; count := count g + 1 |})
      by apply global_list_set_global_list.
    rewrite Hlist. cbn [head count]. rewrite Hnode.
    assert (Hnext : read_word node w1 = head g).
    { unfold w1, read_word, set_global_list, write_word; cbn.
      rewrite lookup_insert_eq. reflexivity. }
    rewrite Hnext. fold node in Hround. rewrite Hround. reflexivity.
  - reflexivity.
Qed.

End SharedFreeLists.

(** C3: resolution is a function of the node size alone, so resolving
    the free-list policy's optimized heap for one node size twice gives
    one heap type and with it one set of free lists: a block handed back
    through the first resolution is handed out again through the second,
    from the thread's own list when that has room, and from the global
    list to any thread with an empty list when the freeing thread's list
    is full; the user-supplied heap is not called in between. *)
Theorem free_list_policy_resolution_shared (env : environment)
    (Heap : heap_type) (Limit S1 S2 : N) :
  S1 = S2 ->
  optimized (free_list_heap_policy Heap Limit) S1
  = optimized (free_list_heap_policy Heap Limit) S2
  /\ (forall (size1 size2 : N) (block : ptr) (t : thread_id) (w : world),
        size1 <= S1 -> size2 <= S2 ->
        block_to_node env block <> 0 ->
        node_to_block env (block_to_node env block) = block ->
        count (thread_list (thread_tier Heap Limit S1) t w) < Limit ->
        exists w1 w2,
          deallocate env (optimized (free_list_heap_policy Heap Limit) S1)
            size1 block t w = Returned tt w1
          /\ allocate env (optimized (free_list_heap_policy Heap Limit) S2)
               size2 t w1 = Returned block w2
          /\ calls w2 = calls w)
  /\ (forall (size1 size2 : N) (block : ptr) (t t' : thread_id) (w : world),
        size1 <= S1 -> size2 <= S2 ->
        block_to_node env block <> 0 ->
        node_to_block env (block_to_node env block) = block ->
        Limit <= count (thread_list (thread_tier Heap Limit S1) t w) ->
        count (global_list (global_tier Heap Limit S1) w) < Limit ->
        head (thread_list (thread_tier Heap Limit S1) t' w) = 0 ->
        exists w1 w2,
          deallocate env (optimized (free_list_heap_policy Heap Limit) S1)
            size1 block t w = Returned tt w1
          /\ allocate env (optimized (free_list_heap_policy Heap Limit) S2)
               size2 t' w1 = Returned block w2
          /\ calls w2 = calls w).
Proof.
  intros <-. split; [reflexivity|]. split.
  - intros. apply freed_block_reused_by_thread; assumption.
  - intros. apply freed_block_reused_across_threads with (t := t); assumption.
Qed.

Lemma free_list_policy_resolution_shared_witness :
  (exists w1 w2,
     deallocate (bump_env true)
       (optimized (free_list_heap_policy malloc_heap 1024) 48)
       48 4112 0 empty_world = Returned tt w1
     /\ allocate (bump_env true)
          (optimized (free_list_heap_policy malloc_heap 1024) 48)
          48 0 w1 = Returned 4112 w2
     /\ calls w2 = [])
  /\ (exists w1 w2,
        deallocate (bump_env true)
          (optimized (free_list_heap_policy malloc_heap 1) 48)
          48 4112 0 full_thread_world = Returned tt w1
        /\ allocate (bump_env true)
             (optimized (free_list_heap_policy malloc_heap 1) 48)
             48 1 w1 = Returned 4112 w2
        /\ calls w2 = []).
Proof.
  assert (Hle : (48 : N) <= 48) by (vm_compute; discriminate).
  assert (Hnode : block_to_node (bump_env true) 4112 <> 0)
    by (vm_compute; discriminate).
  assert (Hround : node_to_block (bump_env true)
                     (block_to_node (bump_env true) 4112) = 4112)
    by reflexivity.
  split.
  - assert (Hroom : count (thread_list (thread_tier malloc_heap 1024 48) 0
                             empty_world) < 1024)
      by reflexivity.
    exact (proj1 (proj2 (free_list_policy_resolution_shared (bump_env true)
                           malloc_heap 1024 48 48 eq_refl))
             48 48 4112 0 empty_world Hle Hle Hnode Hround Hroom).
  - assert (Hfull : 1 <= count (thread_list (thread_tier malloc_heap 1 48) 0
                                  full_thread_world))
      by (vm_compute; discriminate).
    assert (Hroom : count (global_list (global_tier malloc_heap 1 48)
                             full_thread_world) < 1)
      by reflexivity.
    assert (Hempty : head (thread_list (thread_tier malloc_heap 1 48) 1
                             full_thread_world) = 0)
      by reflexivity.
    exact (proj2 (proj2 (free_list_policy_resolution_shared (bump_env true)
                           malloc_heap 1 48 48 eq_refl))
             48 48 4112 0 1 full_thread_world
             Hle Hle Hnode Hround Hfull Hroom Hempty).
Defined.

(** ** Further properties of resolution *)

(** Resolution of either free-list policy is injective: two resolutions
    give the same heap type exactly when the base heap, the limit and
    the node size all agree.  (This is about the resolved types only;
    which free lists two different types may reach is a separate
    matter.) *)
Theorem free_list_policies_optimized_injective
    (Heap Heap' : heap_type) (Limit Limit' Size Size' : N) :
  (optimized (free_list_heap_policy Heap Limit) Size
   = optimized (free_list_heap_policy Heap' Limit') Size'
   <-> Heap = Heap' /\ Limit = Limit' /\ Size = Size')
  /\ (optimized (unsafe_free_list_heap_policy Heap Limit) Size
      = optimized (unsafe_free_list_heap_policy Heap' Limit') Size'
      <-> Heap = Heap' /\ Limit = Limit' /\ Size = Size').
Proof.
  split; (split; [cbn; intros H; injection H; auto | intros (-> & -> & ->); reflexivity]).
Qed.

(** The thread-safe and the unsafe policy never resolve to the same
    optimized heap, whatever their arguments, and the optimized heap of
    either is never its own default heap. *)
Theorem free_list_policies_optimized_apart
    (Heap Heap' : heap_type) (Limit Limit' Size Size' : N) :
  optimized (free_list_heap_policy Heap Limit) Size
  <> optimized (unsafe_free_list_heap_policy Heap' Limit') Size'
  /\ optimized (free_list_heap_policy Heap Limit) Size
     <> type (free_list_heap_policy Heap Limit)
  /\ optimized (unsafe_free_list_heap_policy Heap Limit) Size
     <> type (unsafe_free_list_heap_policy Heap Limit).
Proof.
  split; [cbn; discriminate|]. split; [cbn; discriminate|].
  cbn. intros H. apply (f_equal heap_size) in H. cbn in H. lia.
Qed.

(** None of the header's policies brings in an allocator of its own:
    the user-supplied heaps under [type] and under every
    [optimized<Size>::type] are those of [Heap]. *)
Theorem header_policy_user_heaps (Heap : heap_type) (P : HeapPolicy)
    (Size : N) (name : string) :
  header_policy Heap P ->
  (name ∈ user_heaps (optimized P Size) <-> name ∈ user_heaps Heap)
  /\ (name ∈ user_heaps (type P) <-> name ∈ user_heaps Heap).
Proof.
  intros [|Limit|Limit]; cbn; rewrite ?elem_of_app; tauto.
Qed.

Lemma header_policy_user_heaps_witness :
  "malloc_heap" ∈ user_heaps (optimized (free_list_heap_policy malloc_heap 1024) 48)
  <-> "malloc_heap" ∈ user_heaps malloc_heap.
Proof.
  exact (proj1 (header_policy_user_heaps malloc_heap
                  (free_list_heap_policy malloc_heap 1024) 48 "malloc_heap"
                  (thread_safe_policy malloc_heap 1024))).
Defined.

(** ** Properties of every heap the header can build *)

Ltac heap_ops :=
  unfold user_heap_allocate, user_heap_deallocate,
    debug_size_heap_allocate, debug_size_heap_deallocate,
    free_list_heap_allocate, free_list_heap_deallocate,
    thread_local_free_list_heap_allocate,
    thread_local_free_list_heap_deallocate,
    pop_free_list, push_free_list,
    with_free_list_node_allocate, with_free_list_node_deallocate,
    split_heap_allocate, split_heap_deallocate,
    bind, ret, update, gets, this_thread, assertion in *.

Ltac heap_cases :=
  repeat match goal with
    | |- context [if ?c then _ else _] => destruct c eqn:?
    | |- context [match allocate ?e ?b ?s ?t ?w with _ => _ end] =>
        destruct (allocate e b s t w) eqn:?
    | |- context [match deallocate ?e ?b ?s ?d ?t ?w with _ => _ end] =>
        destruct (deallocate e b s d t w) eqn:?
    | |- context [match heap_allocate ?e ?n ?cs ?s with _ => _ end] =>
        destruct (heap_allocate e n cs s) eqn:?
    end.

Section EveryHeap.

Variable env : environment.

Lemma allocate_not_assertion (h : heap_type) :
  forall size t w, allocate env h size t w <> AssertionFailure.
Proof.
  induction h as [name|b IH|s l b IH|s l b IH|s l b IH|b IH|s a IHa b IHb];
    intros size t w; cbn [allocate]; heap_ops; heap_cases;
    try discriminate; try apply IH; try apply IHa; try apply IHb;
    exfalso; eapply IH; eassumption.
Qed.

Lemma deallocate_not_out_of_memory (h : heap_type) :
  forall size data t w, deallocate env h size data t w <> OutOfMemory.
Proof.
  induction h as [name|b IH|s l b IH|s l b IH|s l b IH|b IH|s a IHa b IHb];
    intros size data t w; cbn [deallocate]; heap_ops; heap_cases;
    try discriminate; try apply IH; try apply IHa; try apply IHb.
Qed.

Lemma deallocate_returns_in_release (h : heap_type) :
  debug_build env = false ->
  forall size data t w, exists w', deallocate env h size data t w = Returned tt w'.
Proof.
  intros Hrelease.
  induction h as [name|b IH|s l b IH|s l b IH|s l b IH|b IH|s a IHa b IHb];
    intros size data t w; cbn [deallocate]; heap_ops;
    rewrite ?Hrelease; heap_cases;
    try apply IH; try apply IHa; try apply IHb; eexists; reflexivity.
Qed.

End EveryHeap.

(** ** What reaches the user-supplied heaps, and what is left alone *)

Section Calls.

Variable env : environment.

Ltac use_calls IH :=
  match goal with
  | Hq : allocate env _ _ _ _ = Returned _ _ |- _ =>
      apply IH in Hq; destruct Hq as [Hq|(n & s' & b' & Hin & Hq)];
      cbn [calls write_word set_global_list set_thread_list log_call] in *;
      [left; congruence
      |right; exists n, s', b'; split; [|congruence];
       rewrite ?elem_of_app; auto]
  | Hq : deallocate env _ _ _ _ _ = Returned _ _ |- _ =>
      apply IH in Hq; destruct Hq as [Hq|(n & s' & b' & Hin & Hq)];
      cbn [calls write_word set_global_list set_thread_list log_call] in *;
      [left; congruence
      |right; exists n, s', b'; split; [|congruence];
       rewrite ?elem_of_app; auto]
  end.

Lemma allocate_calls (h : heap_type) :
  forall size t w p w',
    allocate env h size t w = Returned p w' ->
    calls w' = calls w
    \/ exists name s b,
         name ∈ user_heaps h /\ calls w' = CallAllocate name s b :: calls w.
Proof.
  induction h as [name|b IH|s l b IH|s l b IH|s l b IH|b IH|s a IHa b IHb];
    intros size t w p w' H; cbn [allocate user_heaps] in *; heap_ops;
    revert H; heap_cases; intros H; try discriminate;
    try (injection H as <- <-).
  all: try (left; reflexivity).
  all: try use_calls IH.
  all: try use_calls IHa.
  all: try use_calls IHb.
  right. exists name, size, p0. split; [apply list_elem_of_singleton|]; reflexivity.
Qed.

Lemma deallocate_calls (h : heap_type) :
  forall size data t w u w',
    deallocate env h size data t w = Returned u w' ->
    calls w' = calls w
    \/ exists name s b,
         name ∈ user_heaps h /\ calls w' = CallDeallocate name s b :: calls w.
Proof.
  induction h as [name|b IH|s l b IH|s l b IH|s l b IH|b IH|s a IHa b IHb];
    intros size data t w u w' H; cbn [deallocate user_heaps] in *; heap_ops;
    revert H; heap_cases; intros H; try discriminate;
    try (injection H as <- <-).
  all: try (left; reflexivity).
  all: try use_calls IH.
  all: try use_calls IHa.
  all: try use_calls IHb.
  right. exists name, size, data. split; [apply list_elem_of_singleton|]; reflexivity.
Qed.

Lemma allocate_exhausted (w : world) :
  (forall name cs s, heap_allocate env name cs s = None) ->
  (forall k t, head (thread_list k t w) = 0) ->
  (forall k, head (global_list k w) = 0) ->
  forall h size t, allocate env h size t w = OutOfMemory.
Proof.
  intros Hnone Hthread Hglobal.
  induction h as [name|b IH|s l b IH|s l b IH|s l b IH|b IH|s a IHa b IHb];
    intros size t; cbn [allocate]; heap_ops;
    rewrite ?Hnone, ?Hthread, ?Hglobal, ?IH; cbn; rewrite ?IH;
    heap_cases; auto;
    match goal with
    | Hq : allocate _ _ _ _ _ = _ |- _ => rewrite IH in Hq; discriminate
    end.
Qed.


Lemma same_lists_refl k w : same_lists k w w.
Proof. split; reflexivity. Qed.

Lemma same_lists_trans k w1 w2 w3 :
  same_lists k w1 w2 -> same_lists k w2 w3 -> same_lists k w1 w3.
Proof.
  intros [Hg Ht] [Hg' Ht']. split; [congruence|].
  intros t. rewrite Ht', Ht. reflexivity.
Qed.

Lemma same_lists_write_word k a v w : same_lists k w (write_word a v w).
Proof. split; reflexivity. Qed.

Lemma same_lists_log_call k c w : same_lists k w (log_call c w).
Proof. split; reflexivity. Qed.

Lemma same_lists_set_global k h l w :
  h <> k -> same_lists k w (set_global_list h l w).
Proof.
  intros Hne. split; [|reflexivity].
  unfold global_list, set_global_list; cbn.
  rewrite lookup_insert_ne by exact Hne. reflexivity.
Qed.

Lemma same_lists_set_thread k h t l w :
  h <> k -> same_lists k w (set_thread_list h t l w).
Proof.
  intros Hne. split; [reflexivity|]. intros t'.
  unfold thread_list, set_thread_list; cbn.
  rewrite lookup_insert_ne by congruence. reflexivity.
Qed.

Lemma allocate_frame (h : heap_type) :
  forall k, k ∉ list_owners h ->
  forall size t w p w',
    allocate env h size t w = Returned p w' -> same_lists k w w'.
Proof.
  induction h as [name|b IH|s l b IH|s l b IH|s l b IH|b IH|s a IHa b IHb];
    intros k Hk size t w p w' H; cbn [allocate list_owners] in *; heap_ops;
    rewrite ?not_elem_of_cons, ?not_elem_of_app in Hk;
    revert H; heap_cases; intros H; try discriminate;
    try (injection H as <- <-).
  all: try apply same_lists_log_call.
  all: try (apply same_lists_set_global; intuition congruence).
  all: try (apply same_lists_set_thread; intuition congruence).
  all: try (eapply IH; [|eassumption]; tauto).
  all: try (eapply IHa; [|eassumption]; tauto).
  all: try (eapply IHb; [|eassumption]; tauto).
  all: try (eapply same_lists_trans;
            [eapply IH; [|eassumption]; tauto|apply same_lists_write_word]).
Qed.

Lemma deallocate_frame (h : heap_type) :
  forall k, k ∉ list_owners h ->
  forall size data t w u w',
    deallocate env h size data t w = Returned u w' -> same_lists k w w'.
Proof.
  induction h as [name|b IH|s l b IH|s l b IH|s l b IH|b IH|s a IHa b IHb];
    intros k Hk size data t w u w' H; cbn [deallocate list_owners] in *; heap_ops;
    rewrite ?not_elem_of_cons, ?not_elem_of_app in Hk;
    revert H; heap_cases; intros H; try discriminate;
    try (injection H as <- <-).
  all: try apply same_lists_log_call.
  all: try (eapply IH; [|eassumption]; tauto).
  all: try (eapply IHa; [|eassumption]; tauto).
  all: try (eapply IHb; [|eassumption]; tauto).
  all: try (eapply same_lists_trans;
            [apply same_lists_write_word
            |first [apply same_lists_set_global|apply same_lists_set_thread];
             intuition congruence]).
Qed.

Lemma list_owners_size (h k : heap_type) :
  k ∈ list_owners h -> (heap_size k <= heap_size h)%nat.
Proof.
  induction h as [name|b IH|s l b IH|s l b IH|s l b IH|b IH|s a IHa b IHb];
    cbn [list_owners heap_size];
    rewrite ?elem_of_cons, ?elem_of_app, ?elem_of_nil;
    intros Hin;
    repeat match goal with
      | H : _ \/ _ |- _ => destruct H
      | H : False |- _ => destruct H
      | H : _ = _ |- _ => subst; cbn [heap_size]
      | H : _ ∈ list_owners _ |- _ =>
          first [apply IH in H|apply IHa in H|apply IHb in H]
      end; lia.
Qed.

End Calls.

(** ** The mixin under every policy *)

Lemma optimized_user_heaps (Heap : heap_type) (P : HeapPolicy) (Size : N)
    (name : string) :
  header_policy Heap P ->
  name ∈ user_heaps (optimized P Size) -> name ∈ user_heaps Heap.
Proof.
  intros [|Limit|Limit]; cbn; rewrite ?elem_of_app; tauto.
Qed.

(** [operator new] never stops on a failed assertion, whatever the
    policy, the node type, the requested size and the state: it returns
    a block or reports that the heap is exhausted. *)
Theorem operator_new_never_asserts (env : environment) (Deriv : class_type)
    (P : HeapPolicy) (size : N) (t : thread_id) (w : world) :
  operator_new env Deriv P size t w <> AssertionFailure.
Proof. unfold operator_new. apply allocate_not_assertion. Qed.

(** [operator delete] never reports exhaustion, and in a release build
    it always returns. *)
Theorem operator_delete_never_exhausts (env : environment)
    (Deriv : class_type) (P : HeapPolicy) (data : ptr) (size : N)
    (t : thread_id) (w : world) :
  operator_delete env Deriv P data size t w <> OutOfMemory
  /\ (debug_build env = false ->
      exists w', operator_delete env Deriv P data size t w = Returned tt w').
Proof.
  unfold operator_delete. split.
  - apply deallocate_not_out_of_memory.
  - intros Hrelease. apply deallocate_returns_in_release. exact Hrelease.
Qed.

Lemma operator_delete_never_exhausts_witness :
  exists w',
    operator_delete (bump_env false) node48
      (free_list_heap_policy malloc_heap 1024) 4112 48 0 empty_world
    = Returned tt w'.
Proof.
  exact (proj2 (operator_delete_never_exhausts (bump_env false) node48
                  (free_list_heap_policy malloc_heap 1024) 4112 48 0
                  empty_world) eq_refl).
Defined.

(** Under any policy of the header, one [operator new] that returns has
    either called no user-supplied heap or made exactly one call, an
    allocation, to a heap of the policy's [Heap]; it never hands memory
    back. *)
Theorem operator_new_user_heap_calls (env : environment) (Heap : heap_type)
    (Deriv : class_type) (P : HeapPolicy) (size : N) (t : thread_id)
    (w w' : world) (p : ptr) :
  header_policy Heap P ->
  operator_new env Deriv P size t w = Returned p w' ->
  calls w' = calls w
  \/ exists name s b,
       name ∈ user_heaps Heap /\ calls w' = CallAllocate name s b :: calls w.
Proof.
  intros HP H. unfold operator_new in H. apply allocate_calls in H.
  destruct H as [H|(name & s & b & Hin & H)]; [left; exact H|].
  right. exists name, s, b. split; [|exact H].
  apply (optimized_user_heaps Heap P (sizeof Deriv) name HP). exact Hin.
Qed.

Lemma operator_new_user_heap_calls_witness :
  calls (write_word 4096 48
           (log_call (CallAllocate "malloc_heap" 56 4096) empty_world))
  = calls empty_world
  \/ exists name s b,
       name ∈ user_heaps malloc_heap
       /\ calls (write_word 4096 48
                   (log_call (CallAllocate "malloc_heap" 56 4096) empty_world))
          = CallAllocate name s b :: calls empty_world.
Proof.
  apply (operator_new_user_heap_calls (bump_env true) malloc_heap node48
           (free_list_heap_policy malloc_heap 1024) 48 0 empty_world _ 4112).
  - exact (thread_safe_policy malloc_heap 1024).
  - reflexivity.
Defined.

(** Under any policy of the header, one [operator delete] that returns
    has either called no user-supplied heap or made exactly one call, a
    deallocation, to a heap of the policy's [Heap]; it never
    allocates. *)
Theorem operator_delete_user_heap_calls (env : environment)
    (Heap : heap_type) (Deriv : class_type) (P : HeapPolicy) (data : ptr)
    (size : N) (t : thread_id) (w w' : world) :
  header_policy Heap P ->
  operator_delete env Deriv P data size t w = Returned tt w' ->
  calls w' = calls w
  \/ exists name s b,
       name ∈ user_heaps Heap /\ calls w' = CallDeallocate name s b :: calls w.
Proof.
  intros HP H. unfold operator_delete in H. apply deallocate_calls in H.
  destruct H as [H|(name & s & b & Hin & H)]; [left; exact H|].
  right. exists name, s, b. split; [|exact H].
  apply (optimized_user_heaps Heap P (sizeof Deriv) name HP). exact Hin.
Qed.

Lemma operator_delete_user_heap_calls_witness :
  calls (log_call (CallDeallocate "malloc_heap" 48 4096) empty_world)
  = calls empty_world
  \/ exists name s b,
       name ∈ user_heaps malloc_heap
       /\ calls (log_call (CallDeallocate "malloc_heap" 48 4096) empty_world)
          = CallDeallocate name s b :: calls empty_world.
Proof.
  apply (operator_delete_user_heap_calls (bump_env true) malloc_heap node48
           (heap_policy malloc_heap) 4096 48 0 empty_world _).
  - exact (plain_policy malloc_heap).
  - reflexivity.
Defined.

(** When no block is cached in any free list and the user-supplied heaps
    have nothing left, [operator new] reports exhaustion under every
    policy and for every size. *)
Theorem operator_new_exhausted (env : environment) (Deriv : class_type)
    (P : HeapPolicy) (size : N) (t : thread_id) (w : world) :
  (forall name cs s, heap_allocate env name cs s = None) ->
  (forall k t', head (thread_list k t' w) = 0) ->
  (forall k, head (global_list k w) = 0) ->
  operator_new env Deriv P size t w = OutOfMemory.
Proof.
  intros Hnone Hthread Hglobal. unfold operator_new.
  apply allocate_exhausted; assumption.
Qed.

Lemma operator_new_exhausted_witness :
  operator_new exhausted_env node48 (free_list_heap_policy malloc_heap 1024)
    48 0 empty_world
  = OutOfMemory.
Proof.
  apply operator_new_exhausted.
  - intros name cs s. reflexivity.
  - intros k t'. reflexivity.
  - intros k. reflexivity.
Defined.

(** ** Pools of the thread-safe free-list policy *)

(** Node types of the same size share one pool: a node of one type
    deleted by a thread whose list has room is the block the next [new]
    of any other node type of that size returns on that thread, and no
    user-supplied heap is called. *)
Theorem equal_size_nodes_share_pool (env : environment) (Heap : heap_type)
    (Limit : N) (D1 D2 : class_type) (block : ptr) (t : thread_id)
    (w : world) :
  sizeof D1 = sizeof D2 ->
  block_to_node env block <> 0 ->
  node_to_block env (block_to_node env block) = block ->
  count (thread_list (thread_tier Heap Limit (sizeof D1)) t w) < Limit ->
  exists w1 w2,
    operator_delete env D1 (free_list_heap_policy Heap Limit)
      block (sizeof D1) t w = Returned tt w1
    /\ operator_new env D2 (free_list_heap_policy Heap Limit)
         (sizeof D2) t w1 = Returned block w2
    /\ calls w2 = calls w.
Proof.
  intros Hsize Hnode Hround Hroom. unfold operator_delete, operator_new.
  rewrite <- Hsize.
  apply freed_block_reused_by_thread;
    [apply N.le_refl|apply N.le_refl|assumption..].
Qed.

Lemma equal_size_nodes_share_pool_witness :
  exists w1 w2,
    operator_delete (bump_env true) node48
      (free_list_heap_policy malloc_heap 1024) 4112 (sizeof node48) 0
      empty_world = Returned tt w1
    /\ operator_new (bump_env true) leaf48
         (free_list_heap_policy malloc_heap 1024) (sizeof leaf48) 0 w1
       = Returned 4112 w2
    /\ calls w2 = calls empty_world.
Proof.
  apply (equal_size_nodes_share_pool (bump_env true) malloc_heap 1024
           node48 leaf48 4112 0 empty_world).
  - reflexivity.
  - vm_compute. discriminate.
  - reflexivity.
  - reflexivity.
Defined.

Lemma other_size_not_owner (Heap : heap_type) (Limit S1 S2 : N) :
  S1 <> S2 ->
  (thread_tier Heap Limit S2
     ∉ list_owners (optimized (free_list_heap_policy Heap Limit) S1))
  /\ (global_tier Heap Limit S2
        ∉ list_owners (optimized (free_list_heap_policy Heap Limit) S1)).
Proof.
  intros Hne. unfold thread_tier, global_tier. cbn.
  rewrite !not_elem_of_cons, !not_elem_of_app.
  repeat split; try congruence;
    intros Hin; apply list_owners_size in Hin; cbn [heap_size] in Hin; lia.
Qed.

(** Pools of different node sizes are kept apart: an allocation or a
    deallocation through the heap resolved for one size leaves the
    thread-local and the global free list of every other size as they
    were, on every thread. *)
Theorem free_list_pools_isolated (env : environment) (Heap : heap_type)
    (Limit S1 S2 : N) :
  S1 <> S2 ->
  (forall size t w p w',
     allocate env (optimized (free_list_heap_policy Heap Limit) S1) size t w
     = Returned p w' ->
     same_lists (thread_tier Heap Limit S2) w w'
     /\ same_lists (global_tier Heap Limit S2) w w')
  /\ (forall size data t w w',
        deallocate env (optimized (free_list_heap_policy Heap Limit) S1)
          size data t w = Returned tt w' ->
        same_lists (thread_tier Heap Limit S2) w w'
        /\ same_lists (global_tier Heap Limit S2) w w').
Proof.
  intros Hne.
  destruct (other_size_not_owner Heap Limit S1 S2 Hne) as [Hthread Hglobal].
  split.
  - intros size t w p w' H. split.
    + exact (allocate_frame env _ _ Hthread size t w p w' H).
    + exact (allocate_frame env _ _ Hglobal size t w p w' H).
  - intros size data t w w' H. split.
    + exact (deallocate_frame env _ _ Hthread size data t w tt w' H).
    + exact (deallocate_frame env _ _ Hglobal size data t w tt w' H).
Qed.

Lemma free_list_pools_isolated_witness :
  same_lists (thread_tier malloc_heap 1024 64) empty_world
    (set_thread_list (thread_tier malloc_heap 1024 48) 0
       {| head := 4104; count := 1 |}
       (write_word 4104 0 empty_world))
  /\ same_lists (global_tier malloc_heap 1024 64) empty_world
       (set_thread_list (thread_tier malloc_heap 1024 48) 0
          {| head := 4104; count := 1 |}
          (write_word 4104 0 empty_world)).
Proof.
  assert (Hne : (48 : N) <> 64) by discriminate.
  apply (proj2 (free_list_pools_isolated (bump_env true) malloc_heap
                  1024 48 64 Hne) 48 4112 0 empty_world).
  reflexivity.
Defined.
